(** * python-etcd client: a shallow embedding of [src/etcd/client.py]

    The module defines one class, [Client], whose methods map key-value
    operations onto etcd's REST interface.  The embedding follows the
    methods line by line:

    - Python values that travel in request parameters are [pyval]s, and a
      parameter dictionary is a [gmap string pyval];
    - exceptions are values of [exn]; a computation that may raise returns a
      [result];
    - methods that reach the HTTP pool run in the monad [M], which threads
      the list of requests sent so far and may raise;
    - what the module imports but does not define ([json.loads], the
      [etcd.EtcdResult] constructor, [etcd.EtcdError.handle], and the
      urllib3 pool behind [self.http]) is an interface (a type class) the
      development is parametric in.

    Line 174 of the source ([def write(...)]) lacks its closing colon; the
    body of [write] is embedded as it is written below that line. *)

From Stdlib Require Import Ascii.
From stdpp Require Import gmap strings list pretty.

Open Scope Z_scope.

(** ** Python values and exceptions *)

(** Values that occur as request parameters: [None], booleans, integers and
    strings. *)
Inductive pyval : Type :=
| PNone
| PBool (b : bool)
| PInt (n : Z)
| PStr (s : string).

(** A keyword/parameter dictionary. *)
Abbreviation dict := (gmap string pyval).

(** The exceptions that can travel through the client's methods. *)
Inductive exn : Type :=
| AttributeError (name : string)
| NameError (name : string)
| UnboundLocalError (name : string)
| TypeError
| ValueError
| KeyError
| StopIteration
| EtcdException (msg : string)
| HTTPError (msg : string).

(** [except KeyError] *)
Definition is_KeyError (e : exn) : bool :=
  match e with KeyError => true | _ => false end.

Inductive result (A : Type) : Type :=
| Ok (a : A)
| Raise (e : exn).
Arguments Ok {A} a.
Arguments Raise {A} e.

#[global] Instance result_ret : MRet result := λ A a, Ok a.
#[global] Instance result_bind : MBind result := λ A B f r,
  match r with Ok a => f a | Raise e => Raise e end.
#[global] Instance result_fmap : FMap result := λ A B f r,
  match r with Ok a => Ok (f a) | Raise e => Raise e end.

(** [try: body / except: raise e] with a bare [except], which catches every
    exception. *)
Definition try_except_all {A} (body : result A) (e : exn) : result A :=
  match body with Ok a => Ok a | Raise _ => Raise e end.

(** A list comprehension [[f(v) for v in l]]: elements are evaluated left to
    right and the first exception aborts the whole comprehension. *)
Fixpoint comprehension {A B} (f : A → result B) (l : list A) : result (list B) :=
  match l with
  | [] => Ok []
  | v :: l' => b ← f v; bs ← comprehension f l'; mret (b :: bs)
  end.

(** ** JSON values, as [json.loads] produces them *)

#[warnings="-register-all"]
Inductive json : Type :=
| JNull
| JBool (b : bool)
| JInt (n : Z)
| JFloat (literal : string)
| JStr (s : string)
| JList (items : list json)
| JDict (members : list (string * json)).

(** [f( **v )]: the call unpacks a dict into keyword arguments; unpacking
    anything else is a [TypeError]. *)
Definition call_kwargs {A} (f : list (string * json) → result A) (v : json) : result A :=
  match v with
  | JDict members => f members
  | _ => Raise TypeError
  end.

(** ** The transport *)

(** Which urllib3 entry point a request went through: [request] (which, for
    GET and DELETE, puts the fields in the URL) or [request_encode_body]
    (which, with [encode_multipart=False], form-encodes them in the body). *)
Inductive entry_point : Type :=
| request
| request_encode_body.

Record Request : Type := mkRequest {
  rq_entry : entry_point;
  rq_method : string;
  rq_url : string;
  rq_fields : option dict;
  rq_redirect : bool
}.

Record Response : Type := mkResponse {
  status : Z;
  data : string
}.

(** ** What the module imports *)

(** [json.loads]: a malformed document raises. *)
Class Json := {
  json_loads : string → result json
}.

(** The [etcd] package's own names, declared in its [__init__] and not in
    this module: the result type with its keyword constructor, and the error
    classifier, which always raises. *)
Class EtcdPackage := {
  Result : Type;
  EtcdResult : list (string * json) → result Result;
  EtcdError_handle : list (string * json) → exn
}.

(** The pool behind [self.http]: given every request sent so far (the last
    one being the one to answer), it yields a response or raises. *)
Class Transport := {
  http : list Request → result Response
}.

(** ** The monad of the methods: requests sent so far, and exceptions *)

Definition M (A : Type) : Type := list Request → result A * list Request.

Definition ret {A} (a : A) : M A := λ log, (Ok a, log).
Definition raise {A} (e : exn) : M A := λ log, (Raise e, log).
Definition bind {A B} (m : M A) (k : A → M B) : M B := λ log,
  match m log with
  | (Ok a, log') => k a log'
  | (Raise e, log') => (Raise e, log')
  end.
Definition lift {A} (r : result A) : M A := λ log, (r, log).

Notation "x <- m ;; k" := (bind m (λ x, k))
  (at level 100, m at next level, right associativity).

(** [try: body / except C: handler], where [catches] recognises [C]. *)
Definition try_except {A} (body : M A) (catches : exn → bool) (handler : M A) : M A :=
  λ log,
  match body log with
  | (Ok a, log') => (Ok a, log')
  | (Raise e, log') => if catches e then handler log' else (Raise e, log')
  end.

(** One call into the pool. *)
Definition send `{Transport} (rq : Request) : M Response := λ log,
  (http (log ++ [rq]), log ++ [rq]).

(** ** class Client *)

(** The instance attributes [__init__] sets (the pool [self.http] is the
    [Transport]). *)
Record Client : Type := mkClient {
  _host : string;
  _port : Z;
  _protocol : string;
  _base_uri : string;
  version_prefix : string;
  _read_timeout : Z;
  _allow_redirect : bool
}.

(** [__init__], lines 57-64; [_base_uri] is ["%s://%s:%d" % (protocol, host, port)]. *)
Definition __init__ (host : string) (port : Z) (read_timeout : Z)
    (allow_redirect : bool) (protocol : string) : Client :=
  {| _host := host;
     _port := port;
     _protocol := protocol;
     _base_uri := protocol +:+ "://" +:+ host +:+ ":" +:+ pretty port;
     version_prefix := "/v2";
     _read_timeout := read_timeout;
     _allow_redirect := allow_redirect |}.

(** The [allow_redirect] property, lines 115-118. *)
Definition allow_redirect (self : Client) : bool := _allow_redirect self.

(** The [key_endpoint] property, lines 150-155. *)
Definition key_endpoint (self : Client) : string := version_prefix self +:+ "/keys".

(** Line 24. *)
Definition _comparison_conditions : list string :=
  ["prevValue"; "prevIndex"; "prevExists"].

(** Every string-valued attribute an instance has that is read without I/O:
    the class constants of lines 21-23, the instance attributes of
    [__init__], and the properties of lines 90-108 and 150-155.  The class
    derives from [object] and defines nothing else of that kind; in
    particular it has no [_MPOST] and no [watch_endpoint]. *)
Definition str_attributes (self : Client) : list (string * string) :=
  [ ("_MGET", "GET");
    ("_MPUT", "PUT");
    ("_MDELETE", "DELETE");
    ("_host", _host self);
    ("_protocol", _protocol self);
    ("_base_uri", _base_uri self);
    ("version_prefix", version_prefix self);
    ("base_uri", _base_uri self);
    ("host", _host self);
    ("protocol", _protocol self);
    ("key_endpoint", key_endpoint self) ].

Fixpoint assoc (name : string) (table : list (string * string)) : option string :=
  match table with
  | [] => None
  | (n, v) :: table' => if String.eqb name n then Some v else assoc name table'
  end.

(** [self.<name>] for a string-valued attribute. *)
Definition getattr (self : Client) (name : string) : M string :=
  match assoc name (str_attributes self) with
  | Some v => ret v
  | None => raise (AttributeError name)
  end.

(** The names bound at module level: the four imports (lines 9-13) and the
    class. *)
Definition module_globals : list string :=
  ["urllib3"; "json"; "ssl"; "etcd"; "Client"].

(** Reading a global name of the module. *)
Definition load_global (name : string) : M unit :=
  if existsb (String.eqb name) module_globals then ret tt
  else raise (NameError name).

(** What [_result_from_response] returns: one result, or a list of them. *)
Inductive Decoded `{EtcdPackage} : Type :=
| One (r : Result)
| Many (rs : list Result).

Section Methods.
Context `{Json} `{EtcdPackage} `{Transport}.

(** [_result_from_response], lines 381-389. *)
Definition _result_from_response (response : string) : result Decoded :=
  try_except_all
    (res ← json_loads response;
     match res with
     | JList items =>            (* isinstance(res, list) *)
         Many <$> comprehension (call_kwargs EtcdResult) items
     | _ => One <$> call_kwargs EtcdResult res
     end)
    (EtcdException "Unable to decode server response").

(** [api_execute], lines 391-414. *)
Definition api_execute (self : Client) (path method : string)
    (params : option dict) : M string :=
  base <- getattr self "_base_uri";;
  let url := base +:+ path in
  mget <- getattr self "_MGET";;
  get_or_delete <-
    (if String.eqb method mget then ret true
     else mdelete <- getattr self "_MDELETE";; ret (String.eqb method mdelete));;
  response <-
    (if get_or_delete : bool then
       send (mkRequest request method url params (allow_redirect self))
     else
       mpost <- getattr self "_MPOST";;
       if String.eqb method mpost then
         send (mkRequest request_encode_body method url params (allow_redirect self))
       else
         (* neither branch has bound [response] *)
         raise (UnboundLocalError "response"));;
  if status response =? 200 then
    ret (data response)
  else
    _ <- load_global "EtcdError";;
    lift (payload ← json_loads (data response);
          call_kwargs (λ kw, Raise (EtcdError_handle kw)) payload).

(** [write], lines 199-208: the parameter dictionary. *)
Definition write_params (value : pyval) (ttl : option Z) (kwdargs : dict) : dict :=
  let params : dict := {[ "value" := value ]} in
  let params :=
    match ttl with
    | Some t => if t =? 0 then params else <[ "ttl" := PInt t ]> params
    | None => params
    end in
  foldl (λ params condition,
           match kwdargs !! condition with
           | Some v => <[ condition := v ]> params
           | None => params
           end)
        params _comparison_conditions.

(** [write], lines 211-212: the path, method and parameters that [write]
    hands to [api_execute]. *)
Definition write_call (self : Client) (key : string) (value : pyval)
    (ttl : option Z) (kwdargs : dict) : M (string * string * option dict) :=
  let params := write_params value ttl kwdargs in
  endpoint <- getattr self "key_endpoint";;
  let path := endpoint +:+ key in
  mput <- getattr self "_MPUT";;
  ret (path, mput, Some params).

(** [write], lines 174-213. *)
Definition write (self : Client) (key : string) (value : pyval)
    (ttl : option Z) (kwdargs : dict) : M Decoded :=
  call <- write_call self key value ttl kwdargs;;
  let '(path, method, params) := call in
  response <- api_execute self path method params;;
  lift (_result_from_response response).

(** [test_and_set], line 292.  The body calls [self.write], which is looked
    up on the instance at the call: the method is embedded over the [write]
    the instance answers with ([write self] for an instance of the class
    itself). *)
Definition test_and_set {A} (self_write : string → pyval → option Z → dict → M A)
    (key : string) (value prev_value : pyval) (ttl : option Z) : M A :=
  self_write key value ttl {[ "prevValue" := prev_value ]}.

(** [set], lines 294-295, over [self.write] likewise. *)
Definition set {A} (self_write : string → pyval → option Z → dict → M A)
    (key : string) (value : pyval) (ttl : option Z) : M A :=
  self_write key value ttl ∅.

(** [get], lines 316-319. *)
Definition get (self : Client) (key : string) : M Decoded :=
  endpoint <- getattr self "key_endpoint";;
  mget <- getattr self "_MGET";;
  response <- api_execute self (endpoint +:+ key) mget
                (Some {[ "recursive" := PStr "true" ]});;
  lift (_result_from_response response).

(** [__contains__], lines 165-169. *)
Definition __contains__ (self : Client) (key : string) : M bool :=
  try_except
    (_ <- get self key;; ret true)
    is_KeyError
    (ret false).

(** [watch], lines 341-345: the choice of parameters and method. *)
Definition watch_select (self : Client) (index : option Z)
    : M (option dict * string) :=
  let params : option dict := None in
  method <- getattr self "_MGET";;
  match index with
  | Some i =>
      if i =? 0 then ret (params, method)
      else
        let params : option dict := Some {[ "index" := PInt i ]} in
        method <- getattr self "_MPOST";;
        ret (params, method)
  | None => ret (params, method)
  end.

(** [watch], lines 341-351. *)
Definition watch (self : Client) (key : string) (index : option Z) : M Decoded :=
  selected <- watch_select self index;;
  let '(params, method) := selected in
  endpoint <- getattr self "watch_endpoint";;
  response <- api_execute self (endpoint +:+ key) method params;;
  lift (_result_from_response response).

End Methods.

(** ** Methods over what the instance answers with

    [self.<name>] and [self.api_execute] are resolved on the instance when
    the line runs; a subclass, or the instance itself, may bind what the
    class does not.  The bodies of [write] and [watch] are embedded a second
    time over these lookups: [attr] for the string attributes and [exec] for
    [self.api_execute]. *)
Section OverTheInstance.
Context `{Json} `{EtcdPackage}.
Variable attr : string → M string.
Variable exec : string → string → option dict → M string.

(** [write], lines 199-213, over [self.api_execute]. *)
Definition write_over (self : Client) (key : string) (value : pyval)
    (ttl : option Z) (kwdargs : dict) : M Decoded :=
  call <- write_call self key value ttl kwdargs;;
  let '(path, method, params) := call in
  response <- exec path method params;;
  lift (_result_from_response response).



End OverTheInstance.


(** ** ethernal_watch: a generator *)

(** The generator body (lines 373-378) calls [self.watch]; the method is
    looked up on the instance at each call, so the generator is embedded
    over whatever [watch] the instance answers with, in whatever world [W]
    that method runs. *)
Section Generator.
Context {W A : Type} (watch_method : string → option Z → W → result A * W).

(** A generator object: suspended with its frame ([key], [local_index]), or
    finished once its body has raised. *)
Inductive generator : Type :=
| Suspended (key : string) (local_index : option Z)
| Finished.

(** Calling the generator function runs none of its body. *)
Definition ethernal_watch_over (key : string) (index : option Z) : generator :=
  Suspended key index.

(** [next(g)]: run the body up to its [yield]. *)
Definition next (g : generator) (w : W) : result A * generator * W :=
  match g with
  | Finished => (Raise StopIteration, Finished, w)
  | Suspended key local_index =>
      match watch_method key local_index w with
      | (Ok response, w') =>
          let local_index :=
            match local_index with
            | Some i => Some (i + 1)
            | None => None
            end in
          (Ok response, Suspended key local_index, w')
      | (Raise e, w') => (Raise e, Finished, w')
      end
  end.

(** Consume up to [n] items: the items delivered, the exception that ended
    the consumption if any, the generator and the world afterwards. *)
Fixpoint pull (n : nat) (g : generator) (w : W)
    : list A * option exn * generator * W :=
  match n with
  | O => ([], None, g, w)
  | S n' =>
      match next g w with
      | (Ok r, g', w') =>
          let '(rs, e, g'', w'') := pull n' g' w' in (r :: rs, e, g'', w'')
      | (Raise e, g', w') => ([], Some e, g', w')
      end
  end.

End Generator.
Arguments generator : clear implicits.
Arguments Finished : clear implicits.
Arguments Suspended : clear implicits.

(** [Client.ethernal_watch], lines 354-378. *)
Definition ethernal_watch `{Json} `{EtcdPackage} `{Transport}
    (self : Client) (key : string) (index : option Z) : generator :=
  ethernal_watch_over key index.

(** [next] on a generator of a [Client]. *)
Definition client_next `{Json} `{EtcdPackage} `{Transport} (self : Client)
    (g : generator) : list Request → result Decoded * generator * list Request :=
  next (watch self) g.

(** The cursor [k] deliveries after a stream was started at [index]. *)
Definition advance (index : option Z) (k : nat) : option Z :=
  (λ i, i + Z.of_nat k) <$> index.

(** A [watch] that answers from a script and records the arguments of each
    call: the world is the list of calls made so far. *)
Definition scripted_watch {A} (script : nat → result A)
    (key : string) (index : option Z) (calls : list (string * option Z))
    : result A * list (string * option Z) :=
  (script (length calls), calls ++ [(key, index)]).

(** ** The write preconditions, as the specification names them *)

(** The specification gives [write] an optional-fields structure with
    exactly the three recognised preconditions, where the source takes
    keyword arguments. *)
Record preconditions : Type := mkPreconditions {
  prevValue : option pyval;
  prevIndex : option pyval;
  prevExists : option pyval
}.

Definition no_preconditions : preconditions := mkPreconditions None None None.

Definition only_prevValue (v : pyval) : preconditions :=
  mkPreconditions (Some v) None None.

(** The keyword arguments that carry a preconditions structure. *)
Definition kwdargs_of (p : preconditions) : dict :=
  let with_field (name : string) (field : option pyval) (d : dict) : dict :=
    match field with Some v => <[ name := v ]> d | None => d end in
  with_field "prevExists" (prevExists p)
    (with_field "prevIndex" (prevIndex p)
       (with_field "prevValue" (prevValue p) ∅)).

Section SpecSugar.
Context {A : Type} (self_write : string → pyval → option Z → dict → M A).

(** [write(key, value, ttl?, preconditions?)] of the specification. *)
Definition spec_write (key : string) (value : pyval)
    (ttl : option Z) (p : preconditions) : M A :=
  self_write key value ttl (kwdargs_of p).

(** "[testAndSet] is sugar for [write] with only [prevValue] set". *)
Definition spec_testAndSet (key : string)
    (value prev_value : pyval) (ttl : option Z) : M A :=
  spec_write key value ttl (only_prevValue prev_value).

(** "[set] is sugar for [write] with no preconditions". *)
Definition spec_set (key : string) (value : pyval) (ttl : option Z) : M A :=
  spec_write key value ttl no_preconditions.

End SpecSugar.

(** ** Sample collaborators, used by the examples *)

Module Sample.

Definition dq : string := String "034"%char EmptyString.
Definition quoted (s : string) : string := dq +:+ s +:+ dq.

(** A member [name: value] of a JSON object, the value being given as its
    JSON text. *)
Definition member (name text : string) : string := quoted name +:+ ":" +:+ text.

(** [{"action":"get","key":"/foo","value":"bar"}] *)
Definition body_foo : string :=
  "{" +:+ member "action" (quoted "get") +:+ "," +:+ member "key" (quoted "/foo")
      +:+ "," +:+ member "value" (quoted "bar") +:+ "}".

(** [{"action":"get","key":"/dir/b"}] and [{"action":"get","key":"/dir/a"}] *)
Definition body_b : string :=
  "{" +:+ member "action" (quoted "get") +:+ "," +:+ member "key" (quoted "/dir/b") +:+ "}".
Definition body_a : string :=
  "{" +:+ member "action" (quoted "get") +:+ "," +:+ member "key" (quoted "/dir/a") +:+ "}".

(** A listing, [b] before [a]. *)
Definition body_listing : string := "[" +:+ body_b +:+ "," +:+ body_a +:+ "]".

(** A listing whose second element is not an object. *)
Definition body_bad_listing : string := "[" +:+ body_b +:+ ",7]".

(** An object without the [action] and [key] members. *)
Definition body_no_key : string := "{" +:+ member "value" (quoted "bar") +:+ "}".

(** [{"errorCode":100,"message":"Key not found","cause":"/foo","index":5}] *)
Definition body_key_not_found : string :=
  "{" +:+ member "errorCode" "100" +:+ "," +:+ member "message" (quoted "Key not found")
      +:+ "," +:+ member "cause" (quoted "/foo") +:+ "," +:+ member "index" "5" +:+ "}".

Definition json_foo : json :=
  JDict [("action", JStr "get"); ("key", JStr "/foo"); ("value", JStr "bar")].
Definition json_b : json := JDict [("action", JStr "get"); ("key", JStr "/dir/b")].
Definition json_a : json := JDict [("action", JStr "get"); ("key", JStr "/dir/a")].

(** What [json.loads] answers on the sample bodies; every other text used in
    the examples is not JSON. *)
Definition documents : list (string * json) :=
  [ (body_foo, json_foo);
    (body_b, json_b);
    (body_a, json_a);
    (body_listing, JList [json_b; json_a]);
    (body_bad_listing, JList [json_b; JInt 7]);
    (body_no_key, JDict [("value", JStr "bar")]);
    ("7", JInt 7);
    (body_key_not_found,
     JDict [("errorCode", JInt 100); ("message", JStr "Key not found");
            ("cause", JStr "/foo"); ("index", JInt 5)]) ].

Fixpoint find_document (text : string) (table : list (string * json)) : result json :=
  match table with
  | [] => Raise ValueError
  | (t, v) :: table' => if String.eqb text t then Ok v else find_document text table'
  end.

#[export] Instance loads : Json := {| json_loads text := find_document text documents |}.

Fixpoint has_keyword (name : string) (kw : list (string * json)) : bool :=
  match kw with
  | [] => false
  | (n, _) :: kw' => String.eqb name n || has_keyword name kw'
  end.

(** A result keeps its keyword arguments; [action] and [key] are required. *)
#[export] Instance package : EtcdPackage := {|
  Result := list (string * json);
  EtcdResult kw :=
    if has_keyword "action" kw && has_keyword "key" kw then Ok kw else Raise TypeError;
  EtcdError_handle kw :=
    if has_keyword "errorCode" kw then KeyError else TypeError
|}.

(** A server that answers every request alike. *)
Definition answering (code : Z) (body : string) : Transport :=
  {| http _ := Ok (mkResponse code body) |}.

(** A pool that raises on every request. *)
Definition failing (e : exn) : Transport := {| http _ := Raise e |}.

(** [Client()] with the defaults of lines 28-32. *)
Definition client : Client := __init__ "127.0.0.1" 4001 60 true "http".

(** The request [get] sends for the key [/foo]. *)
Definition get_foo_request : Request :=
  mkRequest request "GET" "http://127.0.0.1:4001/v2/keys/foo"
    (Some {[ "recursive" := PStr "true" ]}) true.

(** A watch script: the first three calls deliver, the fourth times out. *)
Definition three_events (k : nat) : result string :=
  match k with
  | 0%nat => Ok "first"
  | 1%nat => Ok "second"
  | 2%nat => Ok "third"
  | _ => Raise (HTTPError "read timed out")
  end.

End Sample.

(** ** The remaining methods of the class *)

(** *** Strings: [str.split] and [str.strip]

    The body of a response is a Python 2 [str]. *)

(** [s.split(sep)] for a separator of one character: the pieces between the
    occurrences of [sep], empty pieces included. *)
Fixpoint str_split (sep : ascii) (s : string) : list string :=
  match s with
  | EmptyString => [EmptyString]
  | String c s' =>
      if Ascii.eqb c sep then EmptyString :: str_split sep s'
      else
        match str_split sep s' with
        | piece :: pieces => String c piece :: pieces
        | [] => [String c EmptyString]
        end
  end.

(** The characters [str.strip()] removes: [string.whitespace], that is tab,
    line feed, vertical tab, form feed, carriage return and space. *)
Definition is_whitespace (c : ascii) : bool :=
  let n := nat_of_ascii c in
  ((9 <=? n)%nat && (n <=? 13)%nat) || (n =? 32)%nat.

(** [s.lstrip()] *)
Fixpoint str_lstrip (s : string) : string :=
  match s with
  | EmptyString => EmptyString
  | String c s' => if is_whitespace c then str_lstrip s' else s
  end.

(** [s.rstrip()] *)
Fixpoint str_rstrip (s : string) : string :=
  match s with
  | EmptyString => EmptyString
  | String c s' =>
      match str_rstrip s' with
      | EmptyString => if is_whitespace c then EmptyString else String c EmptyString
      | rest => String c rest
      end
  end.

(** [s.strip()] *)
Definition str_strip (s : string) : string := str_rstrip (str_lstrip s).

(** [sep.join(l)] *)
Fixpoint str_join (sep : string) (l : list string) : string :=
  match l with
  | [] => EmptyString
  | [x] => x
  | x :: l' => x +:+ sep +:+ str_join sep l'
  end.

(** [c in s] for a character. *)
Fixpoint has_char (c : ascii) (s : string) : bool :=
  match s with
  | EmptyString => false
  | String c' s' => Ascii.eqb c' c || has_char c s'
  end.

(** [s.count(c)] for a character. *)
Fixpoint count_char (c : ascii) (s : string) : nat :=
  match s with
  | EmptyString => O
  | String c' s' => ((if Ascii.eqb c' c then 1 else 0) + count_char c s')%nat
  end.

(** The request [api_execute] hands to the pool's [request] for a GET or a
    DELETE, lines 393-400. *)
Definition dispatched (self : Client) (method path : string)
    (params : option dict) : Request :=
  mkRequest request method (_base_uri self +:+ path) params (allow_redirect self).

Section MoreMethods.
Context `{Json} `{EtcdPackage} `{Transport}.

(** The [machines] property, lines 131-135. *)
Definition machines (self : Client) : M (list string) :=
  prefix <- getattr self "version_prefix";;
  mget <- getattr self "_MGET";;
  body <- api_execute self (prefix +:+ "/machines") mget None;;
  ret (str_strip <$> str_split "," body).

(** The [leader] property, lines 146-148. *)
Definition leader (self : Client) : M string :=
  prefix <- getattr self "version_prefix";;
  mget <- getattr self "_MGET";;
  api_execute self (prefix +:+ "/leader") mget None.

(** [read], lines 243-244: the keyword arguments are the fields, unchecked. *)
Definition read (self : Client) (key : string) (kwdargs : dict) : M Decoded :=
  endpoint <- getattr self "key_endpoint";;
  mget <- getattr self "_MGET";;
  response <- api_execute self (endpoint +:+ key) mget (Some kwdargs);;
  lift (_result_from_response response).

(** [delete], lines 263-264. *)
Definition delete (self : Client) (key : string) : M Decoded :=
  endpoint <- getattr self "key_endpoint";;
  mdelete <- getattr self "_MDELETE";;
  response <- api_execute self (endpoint +:+ key) mdelete None;;
  lift (_result_from_response response).

End MoreMethods.

(** *** [__init__]: the options of the pool, lines 68-88 *)

(** The [cert] argument, in the two shapes its docstring gives: a string
    (the whole certificate) or a tuple of the certificate and key files. *)
Inductive certificate : Type :=
| CertCombined (pem : string)
| CertPair (cert_file key_file : string).

(** The values the options take: strings, and two constants of [ssl]. *)
Inductive pool_option : Type :=
| OptStr (s : string)
| PROTOCOL_TLSv1
| CERT_REQUIRED.

(** Truth value of a string: the empty string is false. *)
Definition str_truthy (s : string) : bool :=
  match s with EmptyString => false | _ => true end.

(** Truth value of [cert]: [None] and the empty string are false, a tuple
    of two is true. *)
Definition cert_truthy (cert : option certificate) : bool :=
  match cert with
  | None => false
  | Some (CertCombined pem) => str_truthy pem
  | Some (CertPair _ _) => true
  end.

(** The dictionary [kw] that [__init__] passes to [urllib3.PoolManager]. *)
Definition pool_kwargs (protocol : string) (cert : option certificate)
    (ca_cert : option string) : gmap string pool_option :=
  let kw : gmap string pool_option := ∅ in
  if String.eqb protocol "https" then
    let kw := <[ "ssl_version" := PROTOCOL_TLSv1 ]> kw in
    let kw :=
      if cert_truthy cert then
        match cert with
        | Some (CertPair cert_file key_file) =>
            <[ "key_file" := OptStr key_file ]>
              (<[ "cert_file" := OptStr cert_file ]> kw)
        | Some (CertCombined pem) => <[ "cert_file" := OptStr pem ]> kw
        | None => kw
        end
      else kw in
    match ca_cert with
    | Some ca =>
        if str_truthy ca then
          <[ "cert_reqs" := CERT_REQUIRED ]> (<[ "ca_certs" := OptStr ca ]> kw)
        else kw
    | None => kw
    end
  else kw.

(** *** More sample collaborators *)

Module Cluster.

(** The body of the [machines] docstring, as the server joins it. *)
Definition nodes : list string := ["http://127.0.0.1:4001"; "http://127.0.0.1:4002"].
Definition body : string := str_join ", " nodes.

(** The request [machines] sends. *)
Definition machines_request : Request :=
  mkRequest request "GET" "http://127.0.0.1:4001/v2/machines" None true.

(** The request [delete] sends for the key [/foo]. *)
Definition delete_foo_request : Request :=
  mkRequest request "DELETE" "http://127.0.0.1:4001/v2/keys/foo" None true.

End Cluster.

Module Subclass.


(** An [api_execute] that sends the request through [request] and returns
    the data of the answer. *)
Definition exec `{Transport} (path method : string) (params : option dict)
    : M string :=
  response <- send (mkRequest request method path params true);;
  ret (data response).


(** The request of a write of [new] under [/key], with [prevValue = old] and
    a ttl of 60. *)
Definition swap_old_for_new : Request :=
  mkRequest request "PUT" "/v2/keys/key"
    (Some {[ "value" := PStr "new"; "ttl" := PInt 60; "prevValue" := PStr "old" ]})
    true.

End Subclass.

(** * Properties *)

(** ** The result decoder *)

Lemma comprehension_Forall2 {A B} (f : A → result B) (l : list A) (bs : list B) :
  comprehension f l = Ok bs ↔ Forall2 (λ v b, f v = Ok b) l bs.
Proof.
  revert bs. induction l as [|v l IH]; intros bs; simpl.
  - split.
    + intros [= <-]. constructor.
    + intros Hall. inversion Hall. reflexivity.
  - destruct (f v) as [b|e] eqn:Hv; simpl.
    + destruct (comprehension f l) as [bs'|e] eqn:Hl; simpl.
      * split.
        -- intros [= <-]. constructor; [exact Hv | by apply IH].
        -- intros Hall. inversion Hall as [|? b' ? bs'' Hb Hrest]; subst.
           apply IH in Hrest. unfold mret, result_ret. congruence.
      * split; [discriminate|].
        intros Hall. inversion Hall as [|? b' ? bs'' Hb Hrest]; subst.
        apply IH in Hrest. discriminate.
    + split; [discriminate|].
      intros Hall. inversion Hall; subst. congruence.
Qed.

Lemma comprehension_length {A B} (f : A → result B) (l : list A) (bs : list B) :
  comprehension f l = Ok bs → length bs = length l.
Proof.
  intros Hc. apply comprehension_Forall2 in Hc.
  symmetry. eapply Forall2_length, Hc.
Qed.

Section DecoderProperties.
Context `{Json} `{EtcdPackage}.

(** C5.  The decoder on every raw body.  When the body parses as a JSON
    list whose elements each construct a result, the decoder returns those
    results, one per element and in the order of the elements; when it
    parses as a JSON object that constructs a result, it returns that one
    result; it returns in no other case; and whenever it fails it fails with
    the one exception [EtcdException('Unable to decode server response')]. *)
Theorem result_from_response_decodes (response : string) :
  (∀ items rs,
      json_loads response = Ok (JList items) →
      Forall2 (λ v r, call_kwargs EtcdResult v = Ok r) items rs →
      _result_from_response response = Ok (Many rs))
  ∧ (∀ members r,
      json_loads response = Ok (JDict members) →
      EtcdResult members = Ok r →
      _result_from_response response = Ok (One r))
  ∧ (∀ d, _result_from_response response = Ok d →
      (∃ items rs, json_loads response = Ok (JList items) ∧ d = Many rs
                   ∧ Forall2 (λ v r, call_kwargs EtcdResult v = Ok r) items rs)
      ∨ (∃ members r, json_loads response = Ok (JDict members) ∧ d = One r
                      ∧ EtcdResult members = Ok r))
  ∧ (∀ e, _result_from_response response = Raise e →
      e = EtcdException "Unable to decode server response").
Proof.
  unfold _result_from_response. repeat split.
  - intros items rs Hj Hall. rewrite Hj. simpl.
    apply comprehension_Forall2 in Hall. rewrite Hall. reflexivity.
  - intros members r Hj Hr. rewrite Hj. simpl. rewrite Hr. reflexivity.
  - intros d. destruct (json_loads response) as [res|e]; simpl; [|discriminate].
    destruct res; simpl; try discriminate.
    + destruct (comprehension _ items) as [rs|e] eqn:Hc; simpl; [|discriminate].
      intros [= <-]. left. exists items, rs.
      repeat split. by apply comprehension_Forall2.
    + destruct (EtcdResult members) as [r|e] eqn:Hr; simpl; [|discriminate].
      intros [= <-]. right. exists members, r. done.
  - intros e. unfold try_except_all.
    destruct (_ ≫= _); [discriminate|]. by intros [= <-].
Qed.

End DecoderProperties.

Lemma result_from_response_decodes_witness :
  @_result_from_response Sample.loads Sample.package Sample.body_listing
  = Ok (@Many Sample.package
          [ [("action", JStr "get"); ("key", JStr "/dir/b")];
            [("action", JStr "get"); ("key", JStr "/dir/a")] ])
  ∧ @_result_from_response Sample.loads Sample.package Sample.body_foo
    = Ok (@One Sample.package
            [("action", JStr "get"); ("key", JStr "/foo"); ("value", JStr "bar")]).
Proof.
  split.
  - apply (proj1 (@result_from_response_decodes Sample.loads Sample.package
                    Sample.body_listing) [Sample.json_b; Sample.json_a]).
    + reflexivity.
    + repeat constructor.
  - apply (proj1 (proj2 (@result_from_response_decodes Sample.loads Sample.package
                           Sample.body_foo))
             [("action", JStr "get"); ("key", JStr "/foo"); ("value", JStr "bar")]).
    + reflexivity.
    + reflexivity.
Defined.

(** A listing with one element that is no object, an object without the
    required members, a number, and a text that is not JSON all fail alike. *)
Example result_from_response_failures :
  let decode := @_result_from_response Sample.loads Sample.package in
  let failure := Raise (EtcdException "Unable to decode server response") in
  decode Sample.body_bad_listing = failure
  ∧ decode Sample.body_no_key = failure
  ∧ decode "7" = failure
  ∧ decode "<html>" = failure.
Proof. repeat split. Qed.

(** ** The request dispatcher *)

Section DispatcherProperties.
Context `{Json} `{EtcdPackage} `{Transport}.

(** GET and DELETE reach the pool through [request]; a 200 response gives
    its body back, any other response ends in the unbound global name. *)
Lemma api_execute_get_delete self path method params log :
  method = "GET" ∨ method = "DELETE" →
  let rq := mkRequest request method (_base_uri self +:+ path) params
              (allow_redirect self) in
  api_execute self path method params log =
  match http (log ++ [rq]) with
  | Ok response =>
      if status response =? 200 then (Ok (data response), log ++ [rq])
      else (Raise (NameError "EtcdError"), log ++ [rq])
  | Raise e => (Raise e, log ++ [rq])
  end.
Proof.
  intros [-> | ->]; simpl; unfold api_execute, bind, send; simpl;
    destruct (http _) as [response|e]; try reflexivity;
    destruct (status response =? 200); reflexivity.
Qed.

(** Every other method stops at the read of [self._MPOST], before any
    request is sent. *)
Lemma api_execute_other self path method params log :
  method ≠ "GET" → method ≠ "DELETE" →
  api_execute self path method params log = (Raise (AttributeError "_MPOST"), log).
Proof.
  intros Hg Hd. unfold api_execute, bind. simpl.
  destruct (String.eqb_spec method "GET"); [done|].
  destruct (String.eqb_spec method "DELETE"); [done|]. reflexivity.
Qed.

(** C1.  What [write] does on every call: it prepares a PUT to the keys path
    of the key, with its parameters; [api_execute], given that PUT, raises
    [AttributeError] at the read of [self._MPOST] without sending anything;
    so [write] raises that error, and the list of requests sent is
    unchanged.  No PUT is executed and no response body is decoded. *)
Theorem write_raises_before_any_request self key value ttl kwdargs log :
  write_call self key value ttl kwdargs log
  = (Ok (key_endpoint self +:+ key, "PUT", Some (write_params value ttl kwdargs)), log)
  ∧ api_execute self (key_endpoint self +:+ key) "PUT"
      (Some (write_params value ttl kwdargs)) log
    = (Raise (AttributeError "_MPOST"), log)
  ∧ write self key value ttl kwdargs log = (Raise (AttributeError "_MPOST"), log).
Proof. repeat split. Qed.

(** C6.  A GET or DELETE that the server answers with a status other than
    200 raises [NameError]: the error branch names [EtcdError], which the
    module does not bind, so the body is never parsed and neither a
    classified error nor a decode error is raised. *)
Theorem api_execute_non200_raises_NameError self path method params log response :
  method = "GET" ∨ method = "DELETE" →
  http (log ++ [mkRequest request method (_base_uri self +:+ path) params
                  (allow_redirect self)]) = Ok response →
  status response ≠ 200 →
  api_execute self path method params log
  = (Raise (NameError "EtcdError"),
     log ++ [mkRequest request method (_base_uri self +:+ path) params
               (allow_redirect self)]).
Proof.
  intros Hmethod Hanswer Hstatus.
  rewrite api_execute_get_delete by exact Hmethod. simpl.
  rewrite Hanswer.
  destruct (Z.eqb_spec (status response) 200); [done | reflexivity].
Qed.

(** C10.  Membership against [get]: when [get] succeeds the test is [True];
    the test is [False] exactly when [get] raises [KeyError]; and any other
    exception of [get] is the exception of the test.  The requests sent are
    those of [get]. *)
Theorem contains_follows_get self key log :
  (∀ r log', get self key log = (Ok r, log') →
     __contains__ self key log = (Ok true, log'))
  ∧ (∀ log', __contains__ self key log = (Ok false, log')
             ↔ get self key log = (Raise KeyError, log'))
  ∧ (∀ e log', get self key log = (Raise e, log') → e ≠ KeyError →
       __contains__ self key log = (Raise e, log')).
Proof.
  unfold __contains__, try_except, bind.
  destruct (get self key log) as [[r|e] log1]; repeat split.
  - intros ? ? [= <- <-]. reflexivity.
  - discriminate.
  - discriminate.
  - discriminate.
  - discriminate.
  - destruct e; simpl; try discriminate. intros [= <-]. reflexivity.
  - intros [= -> <-]. reflexivity.
  - intros e' log' [= <- <-] Hne. destruct e; simpl; try reflexivity. done.
Qed.

End DispatcherProperties.

Lemma api_execute_non200_raises_NameError_witness :
  @api_execute Sample.loads Sample.package
    (Sample.answering 404 Sample.body_key_not_found)
    Sample.client "/v2/keys/foo" "GET" (Some {[ "recursive" := PStr "true" ]}) []
  = (Raise (NameError "EtcdError"), [Sample.get_foo_request]).
Proof.
  apply (@api_execute_non200_raises_NameError Sample.loads Sample.package
           (Sample.answering 404 Sample.body_key_not_found)
           Sample.client "/v2/keys/foo" "GET" _ []
           (mkResponse 404 Sample.body_key_not_found)).
  - left. reflexivity.
  - reflexivity.
  - discriminate.
Defined.

Lemma contains_follows_get_witness :
  @__contains__ Sample.loads Sample.package (Sample.answering 200 Sample.body_foo)
    Sample.client "/foo" []
  = (Ok true, [Sample.get_foo_request])
  ∧ @__contains__ Sample.loads Sample.package (Sample.failing KeyError)
      Sample.client "/foo" []
    = (Ok false, [Sample.get_foo_request])
  ∧ @__contains__ Sample.loads Sample.package (Sample.answering 200 "<html>")
      Sample.client "/foo" []
    = (Raise (EtcdException "Unable to decode server response"), [Sample.get_foo_request]).
Proof.
  split; [|split].
  - eapply (proj1 (@contains_follows_get Sample.loads Sample.package
                     (Sample.answering 200 Sample.body_foo) Sample.client "/foo" [])).
    reflexivity.
  - apply (proj1 (proj2 (@contains_follows_get Sample.loads Sample.package
                           (Sample.failing KeyError) Sample.client "/foo" []))).
    reflexivity.
  - apply (proj2 (proj2 (@contains_follows_get Sample.loads Sample.package
                           (Sample.answering 200 "<html>") Sample.client "/foo" []))).
    + reflexivity.
    + discriminate.
Defined.

(** A key the server reports missing (status 404 with the error body): the
    membership test raises the [NameError] of the dispatcher. *)
Example contains_missing_key :
  @__contains__ Sample.loads Sample.package
    (Sample.answering 404 Sample.body_key_not_found) Sample.client "/foo" []
  = (Raise (NameError "EtcdError"), [Sample.get_foo_request]).
Proof. reflexivity. Qed.

(** ** write and its sugar *)

Lemma write_call_eq self key value ttl kwdargs log :
  write_call self key value ttl kwdargs log
  = (Ok (key_endpoint self +:+ key, "PUT", Some (write_params value ttl kwdargs)), log).
Proof. reflexivity. Qed.

Lemma not_a_condition name :
  name ∉ _comparison_conditions →
  name ≠ "prevValue" ∧ name ≠ "prevIndex" ∧ name ≠ "prevExists".
Proof.
  unfold _comparison_conditions. intros Hname.
  repeat split; intros ->; apply Hname; set_solver.
Qed.

(** A keyword outside the three conditions does not change the parameters. *)
Lemma write_params_insert_other value ttl (kwdargs : dict) name v :
  name ∉ _comparison_conditions →
  write_params value ttl (<[ name := v ]> kwdargs) = write_params value ttl kwdargs.
Proof.
  intros (H1 & H2 & H3)%not_a_condition.
  unfold write_params, _comparison_conditions. simpl.
  by rewrite !lookup_insert_ne.
Qed.

(** The parameters have no entry other than [value], [ttl] and the three
    conditions. *)
Lemma write_params_lookup_other value ttl (kwdargs : dict) name :
  name ∉ _comparison_conditions → name ≠ "value" → name ≠ "ttl" →
  write_params value ttl kwdargs !! name = None.
Proof.
  intros (H1 & H2 & H3)%not_a_condition Hv Ht.
  unfold write_params, _comparison_conditions. simpl.
  destruct (kwdargs !! "prevValue"), (kwdargs !! "prevIndex"),
    (kwdargs !! "prevExists"), ttl as [t|];
    try destruct (t =? 0); by simplify_map_eq.
Qed.

(** The conditions leave the [ttl] entry as the [if ttl:] test made it. *)
Lemma write_params_ttl value ttl (kwdargs : dict) :
  write_params value ttl kwdargs !! "ttl"
  = match ttl with
    | Some t => if t =? 0 then None else Some (PInt t)
    | None => None
    end.
Proof.
  unfold write_params, _comparison_conditions. simpl.
  destruct (kwdargs !! "prevValue"), (kwdargs !! "prevIndex"),
    (kwdargs !! "prevExists"), ttl as [t|];
    try destruct (t =? 0); by simplify_map_eq.
Qed.

(** A condition that was given is sent as it was given. *)
Lemma write_params_condition value ttl (kwdargs : dict) name :
  name ∈ _comparison_conditions →
  write_params value ttl kwdargs !! name = kwdargs !! name.
Proof.
  intros Hname.
  assert (name = "prevValue" ∨ name = "prevIndex" ∨ name = "prevExists") as Hcases.
  { unfold _comparison_conditions in Hname.
    rewrite !elem_of_cons, elem_of_nil in Hname. tauto. }
  unfold write_params, _comparison_conditions. simpl.
  destruct Hcases as [Hn | [Hn | Hn]]; rewrite Hn;
    destruct (kwdargs !! "prevValue") eqn:E1, (kwdargs !! "prevIndex") eqn:E2,
      (kwdargs !! "prevExists") eqn:E3, ttl as [t|];
    try destruct (t =? 0); by simplify_map_eq.
Qed.

Section WriteProperties.
Context `{Json} `{EtcdPackage} `{Transport}.

(** C2, as the code has it.  A keyword whose name is not one of [prevValue],
    [prevIndex], [prevExists] is not rejected: [write] prepares its PUT as
    it does without that keyword, the parameters carry no entry under that
    name, and the whole call is the call without the keyword. *)
Theorem write_ignores_unrecognized_keyword self key value ttl kwdargs name v :
  name ∉ _comparison_conditions →
  (∀ log, ∃ params,
      write_call self key value ttl (<[ name := v ]> kwdargs) log
      = (Ok (key_endpoint self +:+ key, "PUT", Some params), log)
      ∧ params = write_params value ttl kwdargs
      ∧ (name ≠ "value" → name ≠ "ttl" → params !! name = None))
  ∧ write self key value ttl (<[ name := v ]> kwdargs)
    = write self key value ttl kwdargs.
Proof.
  intros Hname. split.
  - intros log. exists (write_params value ttl kwdargs). repeat split.
    + rewrite write_call_eq. by rewrite write_params_insert_other.
    + intros Hv Ht. by apply write_params_lookup_other.
  - unfold write, write_call. by rewrite write_params_insert_other.
Qed.

(** C7, as the code has it.  The parameters [write] prepares for its PUT
    carry [ttl] exactly when a ttl was given and is not zero, and then they
    carry that ttl, whatever its sign. *)
Theorem write_sends_ttl_iff_nonzero self key value ttl kwdargs log :
  ∃ params,
    write_call self key value ttl kwdargs log
    = (Ok (key_endpoint self +:+ key, "PUT", Some params), log)
    ∧ (is_Some (params !! "ttl") ↔ ∃ t, ttl = Some t ∧ t ≠ 0)
    ∧ (∀ t, ttl = Some t → t ≠ 0 → params !! "ttl" = Some (PInt t)).
Proof.
  exists (write_params value ttl kwdargs). split; [apply write_call_eq|].
  rewrite write_params_ttl. split.
  - destruct ttl as [t|]; [destruct (Z.eqb_spec t 0)|]; split.
    + by intros [? ?].
    + intros (t' & [= <-] & Ht). done.
    + intros _. by exists t.
    + by eauto.
    + by intros [? ?].
    + intros (t' & ? & _). done.
  - intros t -> Ht. by destruct (Z.eqb_spec t 0).
Qed.

(** The parameters of a write with only [prevValue] given are those of the
    plain write, and the [prevValue] entry. *)
Lemma write_params_only_prevValue value ttl prev_value :
  write_params value ttl {[ "prevValue" := prev_value ]}
  = <[ "prevValue" := prev_value ]> (write_params value ttl ∅).
Proof.
  unfold write_params. destruct ttl as [t|]; [destruct (t =? 0)|]; reflexivity.
Qed.

(** C8.  Whatever [write] the instance answers with, [test_and_set] is the
    specification's [write] with only [prevValue] set to the previous value,
    and [set] is the specification's [write] with no preconditions: equal
    as computations, so the same requests and the same result or exception.
    Through the body of [write], over whatever [api_execute] the instance
    answers with, [test_and_set] hands the dispatcher one PUT for the key
    whose parameters are those of the plain write and the [prevValue]
    entry, and [set] hands it the PUT of the plain write, which carries none
    of the three conditions. *)
Theorem sugar_is_write {A} (self_write : string → pyval → option Z → dict → M A)
    (exec : string → string → option dict → M string)
    self key value prev_value ttl :
  test_and_set self_write key value prev_value ttl
  = spec_testAndSet self_write key value prev_value ttl
  ∧ set self_write key value ttl = spec_set self_write key value ttl
  ∧ (∀ log,
       test_and_set (write_over exec self) key value prev_value ttl log
       = (response <- exec (key_endpoint self +:+ key) "PUT"
                        (Some (<[ "prevValue" := prev_value ]>
                                 (write_params value ttl ∅)));;
          lift (_result_from_response response)) log)
  ∧ (∀ log,
       set (write_over exec self) key value ttl log
       = (response <- exec (key_endpoint self +:+ key) "PUT"
                        (Some (write_params value ttl ∅));;
          lift (_result_from_response response)) log)
  ∧ (∀ name, name ∈ _comparison_conditions →
       write_params value ttl ∅ !! name = None).
Proof.
  split; [reflexivity|]. split; [reflexivity|]. split; [|split].
  - intros log. unfold test_and_set, write_over.
    unfold bind at 1. rewrite write_call_eq.
    by rewrite write_params_only_prevValue.
  - intros log. unfold set, write_over.
    unfold bind at 1. by rewrite write_call_eq.
  - intros name Hname. by rewrite write_params_condition.
Qed.

(** The class's own [write] is [write_over] its own [api_execute]. *)
Lemma write_is_write_over self key value ttl kwdargs :
  write self key value ttl kwdargs
  = write_over (api_execute self) self key value ttl kwdargs.
Proof. reflexivity. Qed.

End WriteProperties.

Lemma sugar_is_write_witness :
  test_and_set
    (@write_over Sample.loads Sample.package
       (@Subclass.exec (Sample.answering 200 Sample.body_foo)) Sample.client)
    "/key" (PStr "new") (PStr "old") (Some 60) []
  = (Ok (@One Sample.package
           [("action", JStr "get"); ("key", JStr "/foo"); ("value", JStr "bar")]),
     [Subclass.swap_old_for_new]).
Proof.
  rewrite (proj1 (proj2 (proj2
             (@sugar_is_write Sample.loads Sample.package Decoded
                (@write_over Sample.loads Sample.package
                   (@Subclass.exec (Sample.answering 200 Sample.body_foo))
                   Sample.client)
                (@Subclass.exec (Sample.answering 200 Sample.body_foo))
                Sample.client "/key" (PStr "new") (PStr "old") (Some 60))))).
  reflexivity.
Defined.

Lemma write_ignores_unrecognized_keyword_witness :
  @write Sample.loads Sample.package (Sample.answering 200 Sample.body_foo)
    Sample.client "/key" (PStr "new") (Some 60)
    (<[ "prevVal" := PStr "old" ]> {[ "prevExists" := PBool true ]})
  = @write Sample.loads Sample.package (Sample.answering 200 Sample.body_foo)
      Sample.client "/key" (PStr "new") (Some 60) {[ "prevExists" := PBool true ]}.
Proof.
  refine (proj2 (@write_ignores_unrecognized_keyword Sample.loads Sample.package
                   (Sample.answering 200 Sample.body_foo) Sample.client "/key"
                   (PStr "new") (Some 60) {[ "prevExists" := PBool true ]}
                   "prevVal" (PStr "old") _)).
  apply (bool_decide_unpack _). vm_compute. exact I.
Defined.

(** C2, as the claim has it, fails: given the unrecognised keyword
    [prevVal], [write] raises nothing of its own; it prepares the PUT with
    the keyword silently left out. *)
Lemma write_unrecognized_keyword_not_rejected :
  write_call Sample.client "/key" (PStr "new") None {[ "prevVal" := PStr "old" ]} []
  = (Ok ("/v2/keys/key", "PUT", Some {[ "value" := PStr "new" ]}), [])
  ∧ ¬ (∃ e log', write_call Sample.client "/key" (PStr "new") None
                   {[ "prevVal" := PStr "old" ]} [] = (Raise e, log')).
Proof.
  split; [reflexivity|]. intros (e & log' & Hraise). discriminate Hraise.
Qed.

Lemma write_sends_ttl_iff_nonzero_witness :
  ∃ params,
    write_call Sample.client "/key" (PStr "new") (Some 60) ∅ []
    = (Ok ("/v2/keys/key", "PUT", Some params), [])
    ∧ params !! "ttl" = Some (PInt 60).
Proof.
  destruct (@write_sends_ttl_iff_nonzero Sample.client "/key" (PStr "new")
              (Some 60) ∅ []) as (params & Hcall & _ & Hsent).
  exists params. split; [exact Hcall|].
  apply Hsent; [reflexivity | discriminate].
Defined.

(** C7, as the claim has it, fails: a negative ttl is not positive, and the
    PUT that [write] prepares carries it. *)
Lemma write_sends_negative_ttl :
  write_call Sample.client "/key" (PStr "new") (Some (-5)) ∅ []
  = (Ok ("/v2/keys/key", "PUT",
         Some {[ "value" := PStr "new"; "ttl" := PInt (-5) ]}), [])
  ∧ ({[ "value" := PStr "new"; "ttl" := PInt (-5) ]} : dict) !! "ttl"
    = Some (PInt (-5))
  ∧ ¬ (0 < -5).
Proof. repeat split. vm_compute. discriminate. Qed.

(** ** watch *)

(** With a non-zero index the choice stops at the read of [self._MPOST]. *)
Lemma watch_select_nonzero self i log :
  i ≠ 0 → watch_select self (Some i) log = (Raise (AttributeError "_MPOST"), log).
Proof.
  intros Hi. unfold watch_select, bind. simpl.
  destruct (Z.eqb_spec i 0); [done | reflexivity].
Qed.

Section WatchOverTheInstance.
Context `{Json} `{EtcdPackage} `{Transport}.


End WatchOverTheInstance.



Section WatchProperties.
Context `{Json} `{EtcdPackage} `{Transport}.

(** C9.  [watch(key, 0)] is the same computation as [watch(key)]; both
    choose GET with no parameters; and both then raise [AttributeError] at
    the read of [self.watch_endpoint], so that no request is sent. *)
Theorem watch_index_zero_as_omitted self key log :
  watch self key (Some 0) = watch self key None
  ∧ watch_select self (Some 0) log = (Ok (None, "GET"), log)
  ∧ watch self key (Some 0) log = (Raise (AttributeError "watch_endpoint"), log).
Proof. repeat split. Qed.

(** Every [watch] raises [AttributeError] and sends nothing. *)
Lemma watch_raises self key index log :
  ∃ name, watch self key index log = (Raise (AttributeError name), log).
Proof.
  destruct index as [i|]; [destruct (Z.eq_dec i 0) as [-> | Hi]|].
  - by exists "watch_endpoint".
  - exists "_MPOST". unfold watch, bind.
    by rewrite watch_select_nonzero.
  - by exists "watch_endpoint".
Qed.

End WatchProperties.

(** ** ethernal_watch *)

Lemma advance_0 index : advance index 0 = index.
Proof. destruct index; simpl; f_equal; lia. Qed.

Lemma advance_S index k : advance index (S k) = advance (advance index 1) k.
Proof. destruct index; simpl; f_equal; lia. Qed.

Section GeneratorProperties.
Context {W A : Type} (watch_method : string → option Z → W → result A * W).

(** A delivery leaves the generator suspended on the next cursor: one more
    than the cursor of the call just made, or still no cursor. *)
Lemma next_delivers key local_index w r w' :
  watch_method key local_index w = (Ok r, w') →
  next watch_method (Suspended key local_index) w
  = (Ok r, Suspended key (advance local_index 1), w').
Proof. intros Hw. simpl. rewrite Hw. by destruct local_index. Qed.

(** An exception of [watch] leaves the generator finished. *)
Lemma next_ends key local_index w e w' :
  watch_method key local_index w = (Raise e, w') →
  next watch_method (Suspended key local_index) w = (Raise e, Finished, w').
Proof. intros Hw. simpl. by rewrite Hw. Qed.

End GeneratorProperties.

Section ScriptedWatch.
Context {A : Type} (script : nat → result A).

Lemma pull_scripted key n : ∀ li calls,
  let '(delivered, err, g, calls') :=
    pull (scripted_watch script) n (Suspended key li) calls in
  calls' = calls ++ ((λ k, (key, advance li k)) <$>
             seq 0 (length delivered + match err with Some _ => 1 | None => 0 end))
  ∧ (∀ j r, delivered !! j = Some r → script (length calls + j)%nat = Ok r)
  ∧ match err with
    | None => length delivered = n ∧ g = Suspended key (advance li n)
    | Some e => script (length calls + length delivered)%nat = Raise e
                ∧ (length delivered < n)%nat ∧ g = Finished
    end.
Proof.
  induction n as [|n IH]; intros li calls.
  - simpl. rewrite app_nil_r, advance_0. done.
  - cbn [pull].
    destruct (script (length calls)) as [r|e] eqn:Hs.
    + rewrite (next_delivers _ key li calls r (calls ++ [(key, li)]))
        by (unfold scripted_watch; by rewrite Hs).
      specialize (IH (advance li 1) (calls ++ [(key, li)])).
      destruct (pull _ n _ _) as [[[delivered err] g] calls'].
      destruct IH as (Hcalls & Hdel & Herr).
      rewrite length_app in Hdel, Herr. simpl in Hdel, Herr.
      split; [|split].
      * rewrite Hcalls, <- app_assoc. f_equal. simpl. rewrite advance_0. f_equal.
        rewrite <- fmap_S_seq, <- list_fmap_compose.
        apply list_fmap_ext. intros _ k _. simpl. by rewrite <- advance_S.
      * intros [|j] r'; simpl.
        -- intros [= <-]. by rewrite Nat.add_0_r.
        -- intros Hj%Hdel. by rewrite <- Hj; f_equal; lia.
      * destruct err as [e|].
        -- destruct Herr as (He & Hlt & Hg). repeat split; [|simpl; lia|done].
           rewrite <- He. f_equal. simpl. lia.
        -- destruct Herr as [Hl Hg]. split; [simpl; lia|].
           by rewrite Hg, <- advance_S.
    + rewrite (next_ends _ key li calls e (calls ++ [(key, li)]))
        by (unfold scripted_watch; by rewrite Hs).
      simpl. rewrite advance_0. repeat split; try done.
      * by rewrite Nat.add_0_r.
      * lia.
Qed.

(** C4.  Consume [n] items of the stream [ethernal_watch(key, index)] over a
    [watch] that records its calls.  If an index [i] was supplied, the calls
    made are, in order, [watch(key, i)], [watch(key, i+1)], [watch(key,
    i+2)], ...: each cursor is one more than the previous one.  If no index
    was supplied, every call is [watch(key, None)].  There is one call per
    item delivered, plus the call that raised if one did; the items are the
    answers of [watch] in order; and when the first [n] calls all answer,
    [n] items are delivered. *)
Theorem ethernal_watch_cursors (key : string) (index : option Z) (n : nat) :
  let '(delivered, err, g, calls) :=
    pull (scripted_watch script) n (ethernal_watch_over key index) [] in
  (∀ i, index = Some i →
     calls = (λ k, (key, Some (i + Z.of_nat k))) <$> seq 0 (length calls))
  ∧ (index = None → calls = replicate (length calls) (key, None))
  ∧ length calls
    = (length delivered + match err with Some _ => 1 | None => 0 end)%nat
  ∧ (∀ j r, delivered !! j = Some r → script j = Ok r)
  ∧ ((∀ j, (j < n)%nat → ∃ r, script j = Ok r) →
       err = None ∧ length delivered = n).
Proof.
  unfold ethernal_watch_over.
  pose proof (pull_scripted key n index []) as Hpull.
  destruct (pull _ n _ _) as [[[delivered err] g] calls].
  destruct Hpull as (Hcalls & Hdel & Herr). simpl in Hcalls, Hdel, Herr.
  assert (length calls
          = (length delivered + match err with Some _ => 1 | None => 0 end)%nat)
    as Hlen.
  { rewrite Hcalls at 1. by rewrite length_fmap, length_seq. }
  rewrite <- Hlen in Hcalls.
  split; [|split; [|split; [|split]]].
  - intros i ->. exact Hcalls.
  - intros ->. rewrite Hcalls at 1. generalize (length calls) as m. intros m.
    generalize 0%nat. induction m as [|m IH]; intros s; simpl; [done|].
    by rewrite IH.
  - exact Hlen.
  - exact Hdel.
  - intros Hanswers. destruct err as [e|]; [|by destruct Herr].
    destruct Herr as (He & Hlt & _).
    destruct (Hanswers _ Hlt) as [r Hr]. congruence.
Qed.

End ScriptedWatch.

Lemma ethernal_watch_cursors_witness :
  let '(delivered, err, g, calls) :=
    pull (scripted_watch Sample.three_events) 3
      (ethernal_watch_over "/key" (Some 7)) [] in
  (∀ j, (j < 3)%nat → ∃ r, Sample.three_events j = Ok r)
  ∧ err = None
  ∧ length delivered = 3%nat
  ∧ calls = (λ k, ("/key", Some (7 + Z.of_nat k))) <$> seq 0 (length calls).
Proof.
  pose proof (ethernal_watch_cursors Sample.three_events "/key" (Some 7) 3)
    as Hcursors.
  simpl in Hcursors. simpl.
  destruct Hcursors as (Hsupplied & _ & _ & _ & Hall).
  assert (∀ j, (j < 3)%nat → ∃ r, Sample.three_events j = Ok r) as Hanswers.
  { intros [|[|[|j]]] Hj; simpl; eauto. lia. }
  destruct (Hall Hanswers) as [Herr Hlen].
  split; [exact Hanswers|]. split; [exact Herr|]. split; [exact Hlen|].
  exact (Hsupplied 7 eq_refl).
Defined.

(** The same consumption, one item further: the fourth call, with cursor
    10, times out and ends the stream. *)
Example ethernal_watch_three_events :
  pull (scripted_watch Sample.three_events) 5
    (ethernal_watch_over "/key" (Some 7)) []
  = (["first"; "second"; "third"], Some (HTTPError "read timed out"), Finished,
     [("/key", Some 7); ("/key", Some 8); ("/key", Some 9); ("/key", Some 10)]).
Proof. reflexivity. Qed.

Section ClientStream.
Context `{Json} `{EtcdPackage} `{Transport}.

(** Over the class's own [watch], the stream ends at its first item: with
    the exception of [watch], nothing sent. *)
Lemma client_stream_ends_at_first_item self key index log :
  ∃ name,
    client_next self (ethernal_watch self key index) log
    = (Raise (AttributeError name), Finished, log).
Proof.
  destruct (watch_raises self key index log) as [name Hwatch].
  exists name. unfold client_next, ethernal_watch, ethernal_watch_over.
  by apply next_ends.
Qed.

End ClientStream.

(** * Further properties of the code *)

(** ** Strings *)

Lemma str_split_nonempty sep s : str_split sep s ≠ [].
Proof.
  destruct s as [|c s]; simpl; [done|].
  destruct (Ascii.eqb c sep); [done|]. by destruct (str_split sep s).
Qed.

Lemma str_split_length sep s : length (str_split sep s) = S (count_char sep s).
Proof.
  induction s as [|c s IH]; simpl; [done|].
  destruct (Ascii.eqb c sep); simpl; [by rewrite IH|].
  destruct (str_split sep s) as [|piece pieces] eqn:Hs; simpl in *; [done|].
  exact IH.
Qed.

Lemma str_split_no_sep sep s :
  Forall (λ piece, has_char sep piece = false) (str_split sep s).
Proof.
  induction s as [|c s IH]; simpl.
  - by constructor.
  - destruct (Ascii.eqb c sep) eqn:Hc.
    + by constructor.
    + destruct (str_split sep s) as [|piece pieces].
      * constructor; [|done]. simpl. by rewrite Hc.
      * inversion IH as [|? ? Hp Hps]; subst.
        constructor; [|done]. simpl. by rewrite Hc.
Qed.

Lemma str_split_app sep a rest :
  has_char sep a = false →
  str_split sep (a +:+ String sep rest) = a :: str_split sep rest.
Proof.
  induction a as [|c a IH]; simpl.
  - intros _. by rewrite Ascii.eqb_refl.
  - intros [Hc Ha]%orb_false_elim. rewrite Hc, (IH Ha). done.
Qed.

Lemma str_split_whole sep a :
  has_char sep a = false → str_split sep a = [a].
Proof.
  induction a as [|c a IH]; simpl; [done|].
  intros [Hc Ha]%orb_false_elim. by rewrite Hc, (IH Ha).
Qed.

Lemma has_char_lstrip c s : has_char c s = false → has_char c (str_lstrip s) = false.
Proof.
  induction s as [|c' s IH]; simpl; [done|].
  intros Hs. destruct (is_whitespace c'); [|done].
  apply IH. by apply orb_false_elim in Hs as [_ ?].
Qed.

Lemma has_char_rstrip c s : has_char c s = false → has_char c (str_rstrip s) = false.
Proof.
  induction s as [|c' s IH]; simpl; [done|].
  intros [Hc Hs]%orb_false_elim. specialize (IH Hs).
  destruct (str_rstrip s) as [|c'' r].
  - destruct (is_whitespace c'); simpl; [done|]. by rewrite Hc.
  - simpl in *. by rewrite Hc, IH.
Qed.

Lemma has_char_strip c s : has_char c s = false → has_char c (str_strip s) = false.
Proof. intros Hs. by apply has_char_rstrip, has_char_lstrip. Qed.

Lemma str_rstrip_cons c s c' r :
  str_rstrip s = String c' r → str_rstrip (String c s) = String c (String c' r).
Proof. intros Hs. simpl. by rewrite Hs. Qed.

Lemma str_rstrip_idemp s : str_rstrip (str_rstrip s) = str_rstrip s.
Proof.
  induction s as [|c s IH]; simpl; [done|].
  destruct (str_rstrip s) as [|c' r] eqn:Hr.
  - destruct (is_whitespace c) eqn:Hc; simpl; [done|]. by rewrite Hc.
  - by apply str_rstrip_cons.
Qed.

(** A string that is empty or begins with a character that is no whitespace. *)
Lemma str_lstrip_head s :
  match str_lstrip s with
  | EmptyString => True
  | String c _ => is_whitespace c = false
  end.
Proof.
  induction s as [|c s IH]; simpl; [done|].
  destruct (is_whitespace c) eqn:Hc; [done|]. exact Hc.
Qed.

Lemma str_rstrip_head c s :
  is_whitespace c = false → ∃ r, str_rstrip (String c s) = String c r.
Proof.
  intros Hc. simpl. destruct (str_rstrip s); rewrite ?Hc; eauto.
Qed.

Lemma str_strip_idemp s : str_strip (str_strip s) = str_strip s.
Proof.
  unfold str_strip. pose proof (str_lstrip_head s) as Hhead.
  destruct (str_lstrip s) as [|c u]; [done|].
  destruct (str_rstrip_head c u Hhead) as [r Hr]. rewrite Hr.
  simpl str_lstrip. rewrite Hhead. rewrite <- Hr. apply str_rstrip_idemp.
Qed.

Lemma strip_split_leading_space s :
  str_strip <$> str_split "," (String " " s) = str_strip <$> str_split "," s.
Proof.
  cbn [str_split]. change (Ascii.eqb " " ",") with false. cbn iota.
  pose proof (str_split_nonempty "," s) as Hne.
  by destruct (str_split "," s) as [|piece pieces].
Qed.

Lemma parse_join nodes :
  nodes ≠ [] →
  Forall (λ node, has_char "," node = false ∧ str_strip node = node) nodes →
  str_strip <$> str_split "," (str_join ", " nodes) = nodes.
Proof.
  induction nodes as [|x nodes IH]; [done|]. intros _ Hall.
  inversion Hall as [|? ? [Hx Hclean] Hrest]; subst.
  destruct nodes as [|y nodes].
  - simpl. rewrite str_split_whole by done. simpl. by rewrite Hclean.
  - change (str_join ", " (x :: y :: nodes))
      with (x +:+ String "," (String " " (str_join ", " (y :: nodes)))).
    rewrite str_split_app by done. rewrite fmap_cons, Hclean. f_equal.
    rewrite strip_split_leading_space. by apply IH.
Qed.

(** ** The dispatcher and the key methods *)

Section MoreDispatcher.
Context `{Json} `{EtcdPackage} `{Transport}.

Lemma api_execute_dispatched self path method params log :
  method = "GET" ∨ method = "DELETE" →
  api_execute self path method params log =
  match http (log ++ [dispatched self method path params]) with
  | Ok response =>
      if status response =? 200
      then (Ok (data response), log ++ [dispatched self method path params])
      else (Raise (NameError "EtcdError"), log ++ [dispatched self method path params])
  | Raise e => (Raise e, log ++ [dispatched self method path params])
  end.
Proof. intros Hm. by rewrite api_execute_get_delete. Qed.

(** [api_execute] returns a body in one case only: the method is GET or
    DELETE, the one request it sent was answered with status 200, and the
    body returned is the data of that response, unchanged.  Any other
    status, 201 included, returns nothing. *)
Theorem api_execute_returns_iff self path method params log body log' :
  api_execute self path method params log = (Ok body, log')
  ↔ (method = "GET" ∨ method = "DELETE")
    ∧ log' = log ++ [dispatched self method path params]
    ∧ ∃ response, http log' = Ok response
                  ∧ status response = 200 ∧ data response = body.
Proof.
  split.
  - intros Hexec.
    destruct (decide (method = "GET" ∨ method = "DELETE")) as [Hm | Hm].
    + split; [exact Hm|]. rewrite api_execute_dispatched in Hexec by exact Hm.
      destruct (http _) as [response|e] eqn:Hhttp; [|discriminate].
      destruct (Z.eqb_spec (status response) 200) as [Hs|Hs]; [|discriminate].
      injection Hexec as <- <-. split; [done|]. by exists response.
    + rewrite api_execute_other in Hexec by tauto. discriminate.
  - intros (Hm & -> & response & Hhttp & Hs & <-).
    rewrite api_execute_dispatched by exact Hm. rewrite Hhttp.
    by destruct (Z.eqb_spec (status response) 200).
Qed.

(** The requests of one [api_execute]: for GET and DELETE exactly one, sent
    through [request] to the base URI followed by the path, with the
    parameters as fields and the client's redirect setting; for every other
    method none.  Nothing is ever sent through [request_encode_body]. *)
Theorem api_execute_requests self path method params log :
  (api_execute self path method params log).2
  = if decide (method = "GET" ∨ method = "DELETE")
    then log ++ [dispatched self method path params]
    else log.
Proof.
  destruct (decide _) as [Hm | Hm].
  - rewrite api_execute_dispatched by exact Hm.
    destruct (http _) as [response|e]; [|done].
    by destruct (status response =? 200).
  - rewrite api_execute_other by tauto. done.
Qed.

(** The exceptions of [api_execute]: the [AttributeError] on [_MPOST] with
    nothing sent (method neither GET nor DELETE), the exception the pool
    itself raised on the one request, or the [NameError] on [EtcdError]
    after a response whose status is not 200.  It raises nothing else. *)
Theorem api_execute_raises_only self path method params log e log' :
  api_execute self path method params log = (Raise e, log') →
  (method ≠ "GET" ∧ method ≠ "DELETE" ∧ e = AttributeError "_MPOST" ∧ log' = log)
  ∨ (log' = log ++ [dispatched self method path params]
     ∧ (http log' = Raise e
        ∨ ∃ response, http log' = Ok response ∧ status response ≠ 200
                      ∧ e = NameError "EtcdError")).
Proof.
  intros Hexec.
  destruct (decide (method = "GET" ∨ method = "DELETE")) as [Hm | Hm].
  - right. rewrite api_execute_dispatched in Hexec by exact Hm.
    destruct (http _) as [response|e'] eqn:Hhttp.
    + destruct (Z.eqb_spec (status response) 200) as [Hs|Hs]; [discriminate|].
      injection Hexec as <- <-. split; [done|]. right. by exists response.
    + injection Hexec as <- <-. split; [done|]. by left.
  - left. rewrite api_execute_other in Hexec by tauto.
    injection Hexec as <- <-. tauto.
Qed.

Lemma read_eq self key kwdargs log :
  read self key kwdargs log =
  let rq := dispatched self "GET" (key_endpoint self +:+ key) (Some kwdargs) in
  match http (log ++ [rq]) with
  | Ok response =>
      if status response =? 200
      then (_result_from_response (data response), log ++ [rq])
      else (Raise (NameError "EtcdError"), log ++ [rq])
  | Raise e => (Raise e, log ++ [rq])
  end.
Proof.
  unfold read, bind. simpl.
  rewrite (api_execute_dispatched self _ "GET") by (by left).
  destruct (http _) as [response|e]; [|done].
  by destruct (status response =? 200).
Qed.

Lemma delete_eq self key log :
  delete self key log =
  let rq := dispatched self "DELETE" (key_endpoint self +:+ key) None in
  match http (log ++ [rq]) with
  | Ok response =>
      if status response =? 200
      then (_result_from_response (data response), log ++ [rq])
      else (Raise (NameError "EtcdError"), log ++ [rq])
  | Raise e => (Raise e, log ++ [rq])
  end.
Proof.
  unfold delete, bind. simpl.
  rewrite (api_execute_dispatched self _ "DELETE") by (by right).
  destruct (http _) as [response|e]; [|done].
  by destruct (status response =? 200).
Qed.

(** [get(key)] is [read(key, recursive="true")]. *)
Theorem get_is_read_recursive self key :
  get self key = read self key {[ "recursive" := PStr "true" ]}.
Proof. reflexivity. Qed.

(** [read] sends exactly one GET to the keys path of the key, whose fields
    are the keyword arguments as given, whatever their names; and it returns
    a result exactly when that request is answered with status 200 and a
    body the decoder accepts. *)
Theorem read_forwards_keywords self key kwdargs log :
  (read self key kwdargs log).2
  = log ++ [dispatched self "GET" (key_endpoint self +:+ key) (Some kwdargs)]
  ∧ ∀ d log',
      read self key kwdargs log = (Ok d, log')
      ↔ log' = log ++ [dispatched self "GET" (key_endpoint self +:+ key) (Some kwdargs)]
        ∧ ∃ response, http log' = Ok response ∧ status response = 200
                      ∧ _result_from_response (data response) = Ok d.
Proof.
  rewrite read_eq. cbv zeta.
  destruct (http _) as [response|e] eqn:Hhttp.
  - destruct (Z.eqb_spec (status response) 200) as [Hs|Hs]; (split; [done|]).
    + intros d log'. split.
      * intros [= Hd <-]. split; [done|]. by exists response.
      * intros (-> & response' & Hhttp' & _ & Hd).
        rewrite Hhttp in Hhttp'. injection Hhttp' as <-. by rewrite Hd.
    + intros d log'. split; [discriminate|].
      intros (-> & response' & Hhttp' & Hs' & _).
      rewrite Hhttp in Hhttp'. by injection Hhttp' as <-.
  - split; [done|]. intros d log'. split; [discriminate|].
    intros (-> & response' & Hhttp' & _). rewrite Hhttp in Hhttp'. discriminate.
Qed.

(** [delete] sends exactly one DELETE to the keys path of the key, without
    fields; and it returns a result exactly when that request is answered
    with status 200 and a body the decoder accepts. *)
Theorem delete_sends_one_request self key log :
  (delete self key log).2
  = log ++ [dispatched self "DELETE" (key_endpoint self +:+ key) None]
  ∧ ∀ d log',
      delete self key log = (Ok d, log')
      ↔ log' = log ++ [dispatched self "DELETE" (key_endpoint self +:+ key) None]
        ∧ ∃ response, http log' = Ok response ∧ status response = 200
                      ∧ _result_from_response (data response) = Ok d.
Proof.
  rewrite delete_eq. cbv zeta.
  destruct (http _) as [response|e] eqn:Hhttp.
  - destruct (Z.eqb_spec (status response) 200) as [Hs|Hs]; (split; [done|]).
    + intros d log'. split.
      * intros [= Hd <-]. split; [done|]. by exists response.
      * intros (-> & response' & Hhttp' & _ & Hd).
        rewrite Hhttp in Hhttp'. injection Hhttp' as <-. by rewrite Hd.
    + intros d log'. split; [discriminate|].
      intros (-> & response' & Hhttp' & Hs' & _).
      rewrite Hhttp in Hhttp'. by injection Hhttp' as <-.
  - split; [done|]. intros d log'. split; [discriminate|].
    intros (-> & response' & Hhttp' & _). rewrite Hhttp in Hhttp'. discriminate.
Qed.

Lemma get_eq self key log :
  get self key log =
  let rq := dispatched self "GET" (key_endpoint self +:+ key)
              (Some {[ "recursive" := PStr "true" ]}) in
  match http (log ++ [rq]) with
  | Ok response =>
      if status response =? 200
      then (_result_from_response (data response), log ++ [rq])
      else (Raise (NameError "EtcdError"), log ++ [rq])
  | Raise e => (Raise e, log ++ [rq])
  end.
Proof. apply read_eq. Qed.

Lemma result_from_response_raises response e :
  _result_from_response response = Raise e →
  e = EtcdException "Unable to decode server response".
Proof.
  unfold _result_from_response, try_except_all.
  destruct (_ ≫= _); [discriminate|]. by intros [= <-].
Qed.

(** The membership test is [False] in one case only: the pool itself raised
    [KeyError] on the request of [get].  Whenever the server answers, with
    whatever status and body, the test is [True] or raises. *)
Theorem contains_false_iff_pool_KeyError self key log log' :
  __contains__ self key log = (Ok false, log')
  ↔ log' = log ++ [dispatched self "GET" (key_endpoint self +:+ key)
                     (Some {[ "recursive" := PStr "true" ]})]
    ∧ http log' = Raise KeyError.
Proof.
  unfold __contains__, try_except, bind.
  rewrite get_eq. cbv zeta.
  destruct (http _) as [response|e] eqn:Hhttp.
  - destruct (status response =? 200).
    + destruct (_result_from_response (data response)) as [d|e] eqn:Hd.
      * split; [discriminate|]. intros [-> Hk]. congruence.
      * apply result_from_response_raises in Hd as ->.
        simpl. split; [discriminate|]. intros [-> Hk]. congruence.
    + simpl. split; [discriminate|]. intros [-> Hk]. congruence.
  - destruct e; simpl; try (split; [discriminate|]; intros [-> Hk]; congruence).
    split.
    + by intros [= <-].
    + by intros [-> _].
Qed.
End MoreDispatcher.

(** ** The cluster properties and the pool options *)

Section ClusterProperties.
Context `{Json} `{EtcdPackage} `{Transport}.

Lemma machines_eq self log :
  machines self log =
  let rq := dispatched self "GET" (version_prefix self +:+ "/machines") None in
  match http (log ++ [rq]) with
  | Ok response =>
      if status response =? 200
      then (Ok (str_strip <$> str_split "," (data response)), log ++ [rq])
      else (Raise (NameError "EtcdError"), log ++ [rq])
  | Raise e => (Raise e, log ++ [rq])
  end.
Proof.
  unfold machines, bind. simpl.
  rewrite (api_execute_dispatched self _ "GET") by (by left).
  destruct (http _) as [response|e]; [|done].
  by destruct (status response =? 200).
Qed.

Lemma leader_eq self log :
  leader self log =
  let rq := dispatched self "GET" (version_prefix self +:+ "/leader") None in
  match http (log ++ [rq]) with
  | Ok response =>
      if status response =? 200
      then (Ok (data response), log ++ [rq])
      else (Raise (NameError "EtcdError"), log ++ [rq])
  | Raise e => (Raise e, log ++ [rq])
  end.
Proof.
  unfold leader, bind. simpl.
  by rewrite (api_execute_dispatched self _ "GET") by (by left).
Qed.

(** On a 200 response [machines] always returns, whatever the body: one
    node per comma-separated piece (so at least one, and for an empty body
    the single empty string), each without commas and without leading or
    trailing whitespace. *)
Theorem machines_on_200 self log response :
  http (log ++ [dispatched self "GET" (version_prefix self +:+ "/machines") None])
  = Ok response →
  status response = 200 →
  ∃ nodes,
    machines self log
    = (Ok nodes, log ++ [dispatched self "GET" (version_prefix self +:+ "/machines") None])
    ∧ length nodes = S (count_char "," (data response))
    ∧ (data response = EmptyString → nodes = [EmptyString])
    ∧ Forall (λ node, has_char "," node = false ∧ str_strip node = node) nodes.
Proof.
  intros Hhttp Hs. exists (str_strip <$> str_split "," (data response)).
  rewrite machines_eq. cbv zeta. rewrite Hhttp, Hs. simpl.
  split; [done|]. split; [|split].
  - by rewrite length_fmap, str_split_length.
  - by intros ->.
  - apply Forall_fmap. eapply Forall_impl; [apply str_split_no_sep|].
    intros piece Hp. simpl. split; [by apply has_char_strip | apply str_strip_idemp].
Qed.

(** [machines] reads back a list of nodes the server joined with [", "]:
    given at least one node, none containing a comma or beginning or ending
    with whitespace, the body [", ".join(nodes)] gives [nodes]. *)
Theorem machines_round_trip self log response nodes :
  nodes ≠ [] →
  Forall (λ node, has_char "," node = false ∧ str_strip node = node) nodes →
  http (log ++ [dispatched self "GET" (version_prefix self +:+ "/machines") None])
  = Ok response →
  status response = 200 →
  data response = str_join ", " nodes →
  machines self log
  = (Ok nodes, log ++ [dispatched self "GET" (version_prefix self +:+ "/machines") None]).
Proof.
  intros Hne Hnodes Hhttp Hs Hbody.
  rewrite machines_eq. cbv zeta. rewrite Hhttp, Hs, Hbody. simpl.
  by rewrite parse_join.
Qed.

(** [leader] sends one GET without fields to the leader path and returns a
    body exactly when it is answered with status 200: the data of the
    response as it is, not stripped. *)
Theorem leader_returns_body_verbatim self log body log' :
  leader self log = (Ok body, log')
  ↔ log' = log ++ [dispatched self "GET" (version_prefix self +:+ "/leader") None]
    ∧ ∃ response, http log' = Ok response ∧ status response = 200
                  ∧ data response = body.
Proof.
  rewrite leader_eq. cbv zeta.
  destruct (http _) as [response|e] eqn:Hhttp.
  - destruct (Z.eqb_spec (status response) 200) as [Hs|Hs].
    + split.
      * intros [= <- <-]. split; [done|]. by exists response.
      * intros (-> & response' & Hhttp' & _ & <-). congruence.
    + split; [discriminate|].
      intros (-> & response' & Hhttp' & Hs' & _). congruence.
  - split; [discriminate|]. intros (-> & response' & Hhttp' & _). congruence.
Qed.
End ClusterProperties.

(** Unless the protocol is [https], the pool gets no option at all: the
    certificate and the CA certificate are ignored. *)
Theorem pool_kwargs_empty_unless_https protocol cert ca_cert :
  protocol ≠ "https" → pool_kwargs protocol cert ca_cert = ∅.
Proof.
  intros Hp. unfold pool_kwargs.
  by destruct (String.eqb_spec protocol "https").
Qed.

(** With [https] the pool always gets [ssl_version = PROTOCOL_TLSv1];
    [cert_reqs = CERT_REQUIRED] exactly when a non-empty CA certificate was
    given, together with [ca_certs]; and a [key_file] exactly when the
    certificate is a pair, then together with a [cert_file]. *)
Theorem pool_kwargs_https cert ca_cert :
  let kw := pool_kwargs "https" cert ca_cert in
  kw !! "ssl_version" = Some PROTOCOL_TLSv1
  ∧ (kw !! "cert_reqs" = Some CERT_REQUIRED
     ↔ ∃ ca, ca_cert = Some ca ∧ ca ≠ EmptyString)
  ∧ (is_Some (kw !! "cert_reqs") ↔ is_Some (kw !! "ca_certs"))
  ∧ (∀ ca, kw !! "ca_certs" = Some (OptStr ca) ↔ ca_cert = Some ca ∧ ca ≠ EmptyString)
  ∧ (is_Some (kw !! "key_file") ↔ ∃ c k, cert = Some (CertPair c k))
  ∧ (is_Some (kw !! "key_file") → is_Some (kw !! "cert_file")).
Proof.
  unfold pool_kwargs. simpl.
  destruct cert as [[pem|c k]|]; [destruct pem as [|a pem]| |];
    (destruct ca_cert as [[|b ca]|]; simpl;
     repeat split; intros; simplify_map_eq; try done;
     repeat match goal with
       | H : ∃ _, _ |- _ => destruct H
       | H : _ ∧ _ |- _ => destruct H
       | H : is_Some _ |- _ => destruct H
       end; simplify_map_eq; eauto).
Qed.

(** ** Streams, write parameters and listings *)

Section StreamProperties.
Context {W A : Type} (watch_method : string → option Z → W → result A * W).

(** Over any [watch]: consuming [n] items of a stream suspended at a cursor
    delivers at most [n].  Without an exception it delivers [n] and leaves
    the stream suspended on the same key, the cursor advanced by the number
    of items delivered (or still absent); with an exception it delivers
    fewer, the stream is finished, and the exception is the one [watch]
    raised at the cursor reached. *)
Theorem pull_cursor_invariant key n : ∀ local_index w,
  let '(delivered, err, g, w') :=
    pull watch_method n (Suspended key local_index) w in
  (length delivered ≤ n)%nat
  ∧ match err with
    | None => length delivered = n
              ∧ g = Suspended key (advance local_index (length delivered))
    | Some e => (length delivered < n)%nat ∧ g = Finished
                ∧ ∃ w0 w1, watch_method key
                             (advance local_index (length delivered)) w0
                           = (Raise e, w1)
    end.
Proof.
  induction n as [|n IH]; intros li w.
  - simpl. by rewrite advance_0.
  - cbn [pull].
    destruct (watch_method key li w) as [[r|e] w1] eqn:Hw.
    + rewrite (next_delivers _ key li w r w1 Hw).
      specialize (IH (advance li 1) w1).
      destruct (pull _ n _ _) as [[[delivered err] g] w'].
      destruct IH as [Hle Herr]. split; [simpl; lia|].
      destruct err as [e|].
      * destruct Herr as (Hlt & Hg & w0 & w2 & Hraise).
        split; [simpl; lia|]. split; [done|].
        exists w0, w2. simpl length. by rewrite advance_S.
      * destruct Herr as [Hlen Hg]. split; [simpl; lia|].
        simpl length. by rewrite advance_S.
    + rewrite (next_ends _ key li w e w1 Hw). simpl.
      split; [lia|]. split; [lia|]. split; [done|].
      exists w, w1. by rewrite advance_0.
Qed.

Lemma pull_finished n w :
  pull watch_method (S n) Finished w = ([], Some StopIteration, Finished, w).
Proof. reflexivity. Qed.

End StreamProperties.

Section ClientStreamProperties.
Context `{Json} `{EtcdPackage} `{Transport}.

(** Over the class's own [watch], consuming any number of items of
    [ethernal_watch] delivers none: the first [next] raises the
    [AttributeError] of [watch] with nothing sent, and every later [next]
    raises [StopIteration]. *)
Theorem client_stream_delivers_nothing self key index n log :
  ∃ name,
    pull (watch self) (S n) (ethernal_watch self key index) log
    = ([], Some (AttributeError name), Finished, log)
    ∧ client_next self Finished log = (Raise StopIteration, Finished, log).
Proof.
  destruct (watch_raises self key index log) as [name Hwatch].
  exists name. split; [|done].
  unfold ethernal_watch, ethernal_watch_over. cbn [pull].
  by rewrite (next_ends _ key index log _ log Hwatch).
Qed.
End ClientStreamProperties.

(** The parameters [write] prepares always carry [value] as given; each of
    the three conditions is carried exactly when it was given as a keyword,
    with the value given (a [None], a [False] or an empty string included);
    and no name besides [value], [ttl] and the three conditions occurs. *)
Theorem write_sends_conditions_as_given self key value ttl kwdargs log :
  ∃ params,
    write_call self key value ttl kwdargs log
    = (Ok (key_endpoint self +:+ key, "PUT", Some params), log)
    ∧ params !! "value" = Some value
    ∧ (∀ name, name ∈ _comparison_conditions → params !! name = kwdargs !! name)
    ∧ (∀ name, is_Some (params !! name) →
         name ∈ ["value"; "ttl"; "prevValue"; "prevIndex"; "prevExists"]).
Proof.
  exists (write_params value ttl kwdargs).
  split; [apply write_call_eq|]. split; [|split].
  - unfold write_params, _comparison_conditions. simpl.
    destruct (kwdargs !! "prevValue"), (kwdargs !! "prevIndex"),
      (kwdargs !! "prevExists"), ttl as [t|];
      try destruct (t =? 0); by simplify_map_eq.
  - intros name Hname. by apply write_params_condition.
  - intros name Hsome.
    destruct (decide (name ∈ ["value"; "ttl"; "prevValue"; "prevIndex"; "prevExists"]))
      as [Hin | Hout]; [done|].
    rewrite write_params_lookup_other in Hsome.
    + by destruct Hsome.
    + unfold _comparison_conditions. rewrite !elem_of_cons, elem_of_nil in *. tauto.
    + rewrite !elem_of_cons, elem_of_nil in Hout. tauto.
    + rewrite !elem_of_cons, elem_of_nil in Hout. tauto.
Qed.

Section DecoderMore.
Context `{Json} `{EtcdPackage}.

(** A body that parses as a JSON list decodes to a list of as many results
    as it has elements, never to a single result; and if one element does
    not construct a result the whole decoding fails. *)
Theorem listing_all_or_nothing response items :
  json_loads response = Ok (JList items) →
  (∀ rs, _result_from_response response = Ok (Many rs) → length rs = length items)
  ∧ (∀ d, _result_from_response response = Ok d → ∃ rs, d = Many rs)
  ∧ ((∃ v e, v ∈ items ∧ call_kwargs EtcdResult v = Raise e) →
     _result_from_response response
     = Raise (EtcdException "Unable to decode server response")).
Proof.
  intros Hj. unfold _result_from_response. rewrite Hj. simpl.
  destruct (comprehension _ items) as [rs|e] eqn:Hc; simpl.
  - split; [|split].
    + intros rs' [= <-]. by apply comprehension_length in Hc.
    + intros d [= <-]. by exists rs.
    + intros (v & e & Hv & He). apply comprehension_Forall2 in Hc.
      apply list_elem_of_lookup in Hv as [i Hi].
      destruct (Forall2_lookup_l _ _ _ _ _ Hc Hi) as (r & _ & Hr). congruence.
  - split; [|split]; [discriminate | discriminate | done].
Qed.
End DecoderMore.

(** ** The further properties on the sample collaborators *)

Lemma api_execute_returns_iff_witness :
  @api_execute Sample.loads Sample.package (Sample.answering 200 Sample.body_foo)
    Sample.client "/v2/keys/foo" "GET" (Some {[ "recursive" := PStr "true" ]}) []
  = (Ok Sample.body_foo, [Sample.get_foo_request]).
Proof.
  apply (proj2 (@api_execute_returns_iff Sample.loads Sample.package
                  (Sample.answering 200 Sample.body_foo) Sample.client
                  "/v2/keys/foo" "GET" (Some {[ "recursive" := PStr "true" ]}) []
                  Sample.body_foo [Sample.get_foo_request])).
  split; [by left|]. split; [reflexivity|].
  exists (mkResponse 200 Sample.body_foo). repeat split.
Defined.

(** A 201 answer: the failure is the unbound name, after one request. *)
Lemma api_execute_raises_only_witness :
  ∃ response,
    @http (Sample.answering 201 Sample.body_foo) [Sample.get_foo_request] = Ok response
    ∧ status response ≠ 200.
Proof.
  destruct (@api_execute_raises_only Sample.loads Sample.package
              (Sample.answering 201 Sample.body_foo) Sample.client
              "/v2/keys/foo" "GET" (Some {[ "recursive" := PStr "true" ]}) []
              (NameError "EtcdError") [Sample.get_foo_request] eq_refl)
    as [(Hmethod & _) | (_ & [Hpool | (response & Hanswer & Hstatus & _)])].
  - by destruct Hmethod.
  - discriminate Hpool.
  - exists response. split; [exact Hanswer | exact Hstatus].
Defined.

Lemma contains_false_iff_pool_KeyError_witness :
  @__contains__ Sample.loads Sample.package (Sample.failing KeyError)
    Sample.client "/foo" []
  = (Ok false, [Sample.get_foo_request]).
Proof.
  apply (proj2 (@contains_false_iff_pool_KeyError Sample.loads Sample.package
                  (Sample.failing KeyError) Sample.client "/foo" []
                  [Sample.get_foo_request])).
  split; reflexivity.
Defined.

Lemma machines_on_200_witness :
  ∃ nodes,
    @machines Sample.loads Sample.package (Sample.answering 200 Cluster.body) Sample.client []
    = (Ok nodes, [Cluster.machines_request])
    ∧ length nodes = 2%nat.
Proof.
  destruct (@machines_on_200 Sample.loads Sample.package (Sample.answering 200 Cluster.body) Sample.client []
              (mkResponse 200 Cluster.body) eq_refl eq_refl)
    as (nodes & Hmachines & Hlength & _).
  exists nodes. split; [exact Hmachines | exact Hlength].
Defined.

Lemma machines_round_trip_witness :
  @machines Sample.loads Sample.package (Sample.answering 200 Cluster.body) Sample.client []
  = (Ok ["http://127.0.0.1:4001"; "http://127.0.0.1:4002"],
     [Cluster.machines_request]).
Proof.
  apply (@machines_round_trip Sample.loads Sample.package (Sample.answering 200 Cluster.body) Sample.client []
           (mkResponse 200 Cluster.body) Cluster.nodes).
  - discriminate.
  - repeat constructor.
  - reflexivity.
  - reflexivity.
  - reflexivity.
Defined.

Lemma pool_kwargs_empty_unless_https_witness :
  pool_kwargs "http" (Some (CertPair "client.crt" "client.key")) (Some "ca.crt") = ∅.
Proof. apply pool_kwargs_empty_unless_https. discriminate. Defined.

Lemma listing_all_or_nothing_witness :
  @_result_from_response Sample.loads Sample.package Sample.body_bad_listing
  = Raise (EtcdException "Unable to decode server response").
Proof.
  apply (proj2 (proj2 (@listing_all_or_nothing Sample.loads Sample.package
                         Sample.body_bad_listing [Sample.json_b; JInt 7] eq_refl))).
  exists (JInt 7), TypeError. split; [|reflexivity].
  apply list_elem_of_further, list_elem_of_here.
Defined.
